(** * Winkor: the iOS ELF and math compatibility headers

    A shallow embedding of [Scripts/ios-elf.h] and
    [Scripts/ios-math-compat.h].

    Machine integers are values of [Z] in the range of their C type; every
    operation that can leave the range is followed by the reduction the C
    standard prescribes for unsigned arithmetic (modulo [2^w]). *)

From Stdlib Require Import ZArith Lia List Bool String Ascii.
Import ListNotations.

Local Open Scope Z_scope.

(** ** Unsigned machine integers *)

Module UInt.

Definition modulus (w : Z) : Z := 2 ^ w.

Definition in_range (w v : Z) : Prop := 0 <= v < modulus w.

Definition wrap (w v : Z) : Z := v mod modulus w.

(** [a << n] on a [w]-bit unsigned operand. *)
Definition shl (w a n : Z) : Z := wrap w (Z.shiftl a n).

(** [a >> n] on an unsigned operand: a logical shift, no wrap needed. *)
Definition shr (a n : Z) : Z := Z.shiftr a n.

(** [a + b] on [w]-bit unsigned operands. *)
Definition add (w a b : Z) : Z := wrap w (a + b).

End UInt.

Definition u32 (v : Z) : Prop := UInt.in_range 32 v.
Definition u64 (v : Z) : Prop := UInt.in_range 64 v.

(** ** Object layout of C structures

    The headers target LP64 platforms (arm64 iOS, x86-64) where every
    fixed-width integer type is aligned to its own size, a member is
    placed at the next offset that is a multiple of its alignment, and
    the size of a structure is rounded up to its strictest member
    alignment.  Multi-byte members are stored least significant byte
    first on both targets. *)

Module Layout.

Local Open Scope nat_scope.

Inductive ctype : Type :=
| UChar     (* unsigned char *)
| UInt16    (* uint16_t *)
| UInt32    (* uint32_t *)
| UInt64    (* uint64_t *)
| Int64.    (* int64_t *)

Definition sizeof (t : ctype) : nat :=
  match t with
  | UChar => 1
  | UInt16 => 2
  | UInt32 => 4
  | UInt64 => 8
  | Int64 => 8
  end.

Definition alignof (t : ctype) : nat := sizeof t.

(** One member declaration: [m_len] is the array length, [1] for a
    scalar member. *)
Record member : Type := Member {
  m_name : string;
  m_type : ctype;
  m_len : nat
}.

Definition member_size (m : member) : nat := sizeof (m_type m) * m_len m.

(** Bytes skipped at offset [off] to reach a multiple of [a]. *)
Definition padding (off a : nat) : nat := (a - off mod a) mod a.

Definition align_up (off a : nat) : nat := off + padding off a.

(** Offsets of the members under the alignment rule, starting at [off];
    the second component is the offset just past the last member. *)
Fixpoint place (off : nat) (ms : list member) : list (string * nat) * nat :=
  match ms with
  | [] => ([], off)
  | m :: rest =>
      let start := align_up off (alignof (m_type m)) in
      let (os, fin) := place (start + member_size m) rest in
      ((m_name m, start) :: os, fin)
  end.

(** Offsets determined by declaration order and widths alone. *)
Fixpoint place_packed (off : nat) (ms : list member) : list (string * nat) * nat :=
  match ms with
  | [] => ([], off)
  | m :: rest =>
      let (os, fin) := place_packed (off + member_size m) rest in
      ((m_name m, off) :: os, fin)
  end.

Definition struct_align (ms : list member) : nat :=
  fold_right (fun m a => Nat.max (alignof (m_type m)) a) 1 ms.

Definition offsets (ms : list member) : list (string * nat) := fst (place 0 ms).

Definition packed_offsets (ms : list member) : list (string * nat) :=
  fst (place_packed 0 ms).

Definition packed_size (ms : list member) : nat := snd (place_packed 0 ms).

(** [sizeof (struct { ms })] *)
Definition struct_size (ms : list member) : nat :=
  align_up (snd (place 0 ms)) (struct_align ms).

(** Little-endian object representation of one integer in [n] bytes;
    a negative value yields its two's complement. *)
Fixpoint le_split (n : nat) (v : Z) : list Z :=
  match n with
  | O => []
  | S k => (v mod 256)%Z :: le_split k (v / 256)%Z
  end.

Fixpoint le_combine (bs : list Z) : Z :=
  match bs with
  | [] => 0%Z
  | b :: rest => (b + 256 * le_combine rest)%Z
  end.

(** The first [n] elements of [elems], each in [sz] bytes; missing
    elements are zero. *)
Fixpoint encode_elems (sz n : nat) (elems : list Z) : list Z :=
  match n with
  | O => []
  | S k => le_split sz (hd 0%Z elems) ++ encode_elems sz k (tl elems)
  end.

Definition encode_member (m : member) (elems : list Z) : list Z :=
  encode_elems (sizeof (m_type m)) (m_len m) elems.

(** Object representation of the members from offset [off] on; [vals]
    holds the element list of each member, in declaration order. *)
Fixpoint serialize_from (off : nat) (ms : list member) (vals : list (list Z))
  : list Z :=
  match ms with
  | [] => []
  | m :: rest =>
      let p := padding off (alignof (m_type m)) in
      repeat 0%Z p ++ encode_member m (hd [] vals)
        ++ serialize_from (off + p + member_size m) rest (tl vals)
  end.

Definition serialize (ms : list member) (vals : list (list Z)) : list Z :=
  let fin := snd (place 0 ms) in
  serialize_from 0 ms vals ++ repeat 0%Z (padding fin (struct_align ms)).

(** The [n] bytes found at offset [off]. *)
Definition bytes_at (off n : nat) (bs : list Z) : list Z :=
  firstn n (skipn off bs).

(** A structure whose records are given by [values] has the exact
    layout of size [size] when the alignment rule leaves its members where
    declaration order and widths put them, its size is [size] with and
    without the rule, every record serializes to [size] bytes, and the
    bytes of each member sit at the offset determined by order and
    widths. *)
Definition exact_layout {R : Type} (ms : list member)
    (values : R -> list (list Z)) (size : nat) : Prop :=
  struct_size ms = size /\
  packed_size ms = size /\
  offsets ms = packed_offsets ms /\
  forall r : R,
    List.length (serialize ms (values r)) = size /\
    forall (k : nat) (m : member) (o : nat),
      nth_error ms k = Some m ->
      nth_error (packed_offsets ms) k = Some (m_name m, o) ->
      bytes_at o (member_size m) (serialize ms (values r))
        = encode_member m (nth k (values r) []).

End Layout.

(** ** ios-elf.h

    The helper macros are untyped; they are embedded at operand type
    [uint64_t], the type of the [r_info] field they are applied to.  The
    literal [0xffffffff] has type [unsigned int] and is converted to
    [uint64_t] without change of value by the usual arithmetic
    conversions. *)

Module Elf.

(** A character constant has type [int] and the value of its code. *)
Definition char_const (c : ascii) : Z := Z.of_nat (nat_of_ascii c).

(** ELF file types *)
Definition ET_NONE : Z := 0.
Definition ET_REL : Z := 1.
Definition ET_EXEC : Z := 2.
Definition ET_DYN : Z := 3.
Definition ET_CORE : Z := 4.

(** ELF machine types *)
Definition EM_NONE : Z := 0.
Definition EM_386 : Z := 3.
Definition EM_X86_64 : Z := 62.
Definition EM_AARCH64 : Z := 183.

(** ELF class and data *)
Definition ELFCLASS32 : Z := 1.
Definition ELFCLASS64 : Z := 2.
Definition ELFDATA2LSB : Z := 1.
Definition ELFDATA2MSB : Z := 2.

(** ELF version *)
Definition EV_NONE : Z := 0.
Definition EV_CURRENT : Z := 1.

(** Section header types *)
Definition SHT_NULL : Z := 0.
Definition SHT_PROGBITS : Z := 1.
Definition SHT_SYMTAB : Z := 2.
Definition SHT_STRTAB : Z := 3.
Definition SHT_RELA : Z := 4.
Definition SHT_HASH : Z := 5.
Definition SHT_DYNAMIC : Z := 6.
Definition SHT_NOTE : Z := 7.
Definition SHT_NOBITS : Z := 8.
Definition SHT_REL : Z := 9.
Definition SHT_SHLIB : Z := 10.
Definition SHT_DYNSYM : Z := 11.

(** Section header flags *)
Definition SHF_WRITE : Z := 0x1.
Definition SHF_ALLOC : Z := 0x2.
Definition SHF_EXECINSTR : Z := 0x4.
Definition SHF_MASKPROC : Z := 0xf0000000.

(** Symbol binding *)
Definition STB_LOCAL : Z := 0.
Definition STB_GLOBAL : Z := 1.
Definition STB_WEAK : Z := 2.
Definition STB_NUM : Z := 3.

(** Symbol type *)
Definition STT_NOTYPE : Z := 0.
Definition STT_OBJECT : Z := 1.
Definition STT_FUNC : Z := 2.
Definition STT_SECTION : Z := 3.
Definition STT_FILE : Z := 4.
Definition STT_COMMON : Z := 5.
Definition STT_TLS : Z := 6.
Definition STT_NUM : Z := 7.

(** Relocation types *)
Definition R_X86_64_NONE : Z := 0.
Definition R_X86_64_64 : Z := 1.
Definition R_X86_64_PC32 : Z := 2.
Definition R_X86_64_GOT32 : Z := 3.
Definition R_X86_64_PLT32 : Z := 4.
Definition R_X86_64_COPY : Z := 5.
Definition R_X86_64_GLOB_DAT : Z := 6.
Definition R_X86_64_JUMP_SLOT : Z := 7.
Definition R_X86_64_RELATIVE : Z := 8.
Definition R_X86_64_32 : Z := 9.
Definition R_X86_64_32S : Z := 10.
Definition R_X86_64_16 : Z := 11.
Definition R_X86_64_PC16 : Z := 12.
Definition R_X86_64_8 : Z := 13.
Definition R_X86_64_PC8 : Z := 14.

(** ELF header structures *)
Record Elf64_Ehdr : Type := {
  e_ident : list Z;
  e_type : Z;
  e_machine : Z;
  e_version : Z;
  e_entry : Z;
  e_phoff : Z;
  e_shoff : Z;
  e_flags : Z;
  e_ehsize : Z;
  e_phentsize : Z;
  e_phnum : Z;
  e_shentsize : Z;
  e_shnum : Z;
  e_shstrndx : Z
}.

Record Elf64_Shdr : Type := {
  sh_name : Z;
  sh_type : Z;
  sh_flags : Z;
  sh_addr : Z;
  sh_offset : Z;
  sh_size : Z;
  sh_link : Z;
  sh_info : Z;
  sh_addralign : Z;
  sh_entsize : Z
}.

Record Elf64_Sym : Type := {
  st_name : Z;
  st_info : Z;
  st_other : Z;
  st_shndx : Z;
  st_value : Z;
  st_size : Z
}.

Record Elf64_Rela : Type := {
  r_offset : Z;
  r_info : Z;
  r_addend : Z
}.

(** The member declarations of the four structures, in source order. *)
Definition Elf64_Ehdr_decl : list Layout.member :=
  [ Layout.Member "e_ident" Layout.UChar 16;
    Layout.Member "e_type" Layout.UInt16 1;
    Layout.Member "e_machine" Layout.UInt16 1;
    Layout.Member "e_version" Layout.UInt32 1;
    Layout.Member "e_entry" Layout.UInt64 1;
    Layout.Member "e_phoff" Layout.UInt64 1;
    Layout.Member "e_shoff" Layout.UInt64 1;
    Layout.Member "e_flags" Layout.UInt32 1;
    Layout.Member "e_ehsize" Layout.UInt16 1;
    Layout.Member "e_phentsize" Layout.UInt16 1;
    Layout.Member "e_phnum" Layout.UInt16 1;
    Layout.Member "e_shentsize" Layout.UInt16 1;
    Layout.Member "e_shnum" Layout.UInt16 1;
    Layout.Member "e_shstrndx" Layout.UInt16 1 ].

Definition Elf64_Shdr_decl : list Layout.member :=
  [ Layout.Member "sh_name" Layout.UInt32 1;
    Layout.Member "sh_type" Layout.UInt32 1;
    Layout.Member "sh_flags" Layout.UInt64 1;
    Layout.Member "sh_addr" Layout.UInt64 1;
    Layout.Member "sh_offset" Layout.UInt64 1;
    Layout.Member "sh_size" Layout.UInt64 1;
    Layout.Member "sh_link" Layout.UInt32 1;
    Layout.Member "sh_info" Layout.UInt32 1;
    Layout.Member "sh_addralign" Layout.UInt64 1;
    Layout.Member "sh_entsize" Layout.UInt64 1 ].

Definition Elf64_Sym_decl : list Layout.member :=
  [ Layout.Member "st_name" Layout.UInt32 1;
    Layout.Member "st_info" Layout.UChar 1;
    Layout.Member "st_other" Layout.UChar 1;
    Layout.Member "st_shndx" Layout.UInt16 1;
    Layout.Member "st_value" Layout.UInt64 1;
    Layout.Member "st_size" Layout.UInt64 1 ].

Definition Elf64_Rela_decl : list Layout.member :=
  [ Layout.Member "r_offset" Layout.UInt64 1;
    Layout.Member "r_info" Layout.UInt64 1;
    Layout.Member "r_addend" Layout.Int64 1 ].

(** The member values of a record, in declaration order. *)
Definition Elf64_Ehdr_values (h : Elf64_Ehdr) : list (list Z) :=
  [ e_ident h; [e_type h]; [e_machine h]; [e_version h]; [e_entry h];
    [e_phoff h]; [e_shoff h]; [e_flags h]; [e_ehsize h]; [e_phentsize h];
    [e_phnum h]; [e_shentsize h]; [e_shnum h]; [e_shstrndx h] ].

Definition Elf64_Shdr_values (h : Elf64_Shdr) : list (list Z) :=
  [ [sh_name h]; [sh_type h]; [sh_flags h]; [sh_addr h]; [sh_offset h];
    [sh_size h]; [sh_link h]; [sh_info h]; [sh_addralign h]; [sh_entsize h] ].

Definition Elf64_Sym_values (s : Elf64_Sym) : list (list Z) :=
  [ [st_name s]; [st_info s]; [st_other s]; [st_shndx s]; [st_value s];
    [st_size s] ].

Definition Elf64_Rela_values (r : Elf64_Rela) : list (list Z) :=
  [ [r_offset r]; [r_info r]; [r_addend r] ].

(** ELF magic number *)
Definition EI_NIDENT : Z := 16.
Definition ELFMAG0 : Z := 0x7f.
Definition ELFMAG1 : Z := char_const "E".
Definition ELFMAG2 : Z := char_const "L".
Definition ELFMAG3 : Z := char_const "F".

(** [#define ELF64_R_SYM(i)  ((i) >> 32)] *)
Definition ELF64_R_SYM (i : Z) : Z := UInt.shr i 32.

(** [#define ELF64_R_TYPE(i) ((i) & 0xffffffff)] *)
Definition ELF64_R_TYPE (i : Z) : Z := Z.land i 0xffffffff.

(** [#define ELF64_R_INFO(s,t)  (((s) << 32) + ((t) & 0xffffffff))] *)
Definition ELF64_R_INFO (s t : Z) : Z :=
  UInt.add 64 (UInt.shl 64 s 32) (Z.land t 0xffffffff).

(** Modelled from the spec: the identification-byte check, which the
    header leaves to its consumers.  A buffer passes when its bytes 0 to 3
    are [ELFMAG0], [ELFMAG1], [ELFMAG2], [ELFMAG3], in this order; a
    buffer of fewer than four bytes does not pass. *)
Definition ident_check (buf : list Z) : bool :=
  match buf with
  | b0 :: b1 :: b2 :: b3 :: _ =>
      (b0 =? ELFMAG0) && (b1 =? ELFMAG1) && (b2 =? ELFMAG2) && (b3 =? ELFMAG3)
  | _ => false
  end.

End Elf.

(** ** ios-math-compat.h

    [ios_isnanf] and [ios_isinff] exist only under [#ifdef __arm64__],
    where [isnanf] and [isinff] are redefined to them.  Each reads its
    [float] argument back through a union as a [uint32_t]; the functions
    are therefore embedded on the binary32 bit pattern of the argument.
    The result type is [int]: a C comparison yields [1] or [0]. *)

Module MathCompat.

Definition c_true (r : Z) : Prop := r <> 0.

(** [return (u.i & 0x7fffffff) > 0x7f800000;] *)
Definition ios_isnanf (x : Z) : Z :=
  Z.b2z (Z.land x 0x7fffffff >? 0x7f800000).

(** [return (u.i & 0x7fffffff) == 0x7f800000;] *)
Definition ios_isinff (x : Z) : Z :=
  Z.b2z (Z.land x 0x7fffffff =? 0x7f800000).

(** The exponent and fraction fields of a binary32 bit pattern. *)
Definition exponent_of (x : Z) : Z := Z.land (Z.shiftr x 23) 0xff.
Definition fraction_of (x : Z) : Z := Z.land x 0x7fffff.

End MathCompat.

(** ** Reading members back

    What a load of a member from the object representation yields: the
    little-endian value of its bytes, read as two's complement for
    [int64_t]. *)

Module Load.

Import Layout.


Definition load (t : ctype) (off : nat) (bs : list Z) : Z :=
  let v := le_combine (bytes_at off (sizeof t) bs) in
  match t with
  | Int64 => if v <? 2 ^ 63 then v else v - 2 ^ 64
  | _ => v
  end.

End Load.

(** ** Preprocessor directives

    The conditional part of [ios-math-compat.h] is preprocessor code: it
    reads and updates the table of macro definitions.  A directive is
    embedded as a function on that table.  [None] stands for the one
    constraint a directive of the header can violate: [#define] of a name
    that is already defined with a different definition. *)

Module Cpp.

Local Open Scope string_scope.

Inductive macro : Type :=
| FunLike (params : list string) (body : string)   (* #define f(x) body *)
| ObjLike (body : string).                         (* #define f body *)

Definition macro_eq_dec (a b : macro) : {a = b} + {a <> b}.
Proof.
  decide equality; try apply string_dec.
  apply (list_eq_dec string_dec).
Defined.

Definition table : Type := string -> option macro.

Definition empty : table := fun _ => None.

Definition defined (n : string) (e : table) : bool :=
  match e n with
  | Some _ => true
  | None => false
  end.

Definition bind (n : string) (b : macro) (e : table) : table :=
  fun k => if String.eqb k n then Some b else e k.

Definition unbind (n : string) (e : table) : table :=
  fun k => if String.eqb k n then None else e k.

Definition directive : Type := table -> option table.

(** [#define n b] *)
Definition define (n : string) (b : macro) : directive :=
  fun e =>
    match e n with
    | None => Some (bind n b e)
    | Some b' => if macro_eq_dec b' b then Some e else None
    end.

(** [#undef n] *)
Definition undef (n : string) : directive :=
  fun e => Some (unbind n e).

(** [#ifndef n] body [#endif] *)
Definition ifndef (n : string) (body : directive) : directive :=
  fun e => if defined n e then Some e else body e.

(** [#ifdef n] body [#endif] *)
Definition ifdef (n : string) (body : directive) : directive :=
  fun e => if defined n e then body e else Some e.

(** One directive after another. *)
Definition seq (d1 d2 : directive) : directive :=
  fun e =>
    match d1 e with
    | Some e1 => d2 e1
    | None => None
    end.

(** The table after [#ifndef n / #define n b / #endif]. *)
Definition or_default (n : string) (b : macro) (e : table) : table :=
  if defined n e then e else bind n b e.

(** The table after [#undef n / #define n b]. *)
Definition replace (n : string) (b : macro) (e : table) : table :=
  bind n b (unbind n e).

End Cpp.

Declare Scope cpp_scope.
Delimit Scope cpp_scope with cpp.
Notation "d1 ;; d2" := (Cpp.seq d1 d2)
  (at level 61, right associativity) : cpp_scope.

(** ** ios-math-compat.h: the macro definitions *)

Module MathCompatMacros.

Import Cpp.
Local Open Scope string_scope.
Local Open Scope cpp_scope.

(** Lines 13 to 66: eight fallbacks, each under its own [#ifndef], then
    the arm64 overrides.  The two function definitions inside
    [#ifdef __arm64__] and the [extern "C"] brackets define no macro. *)
Definition compat_macros : directive :=
  ifndef "isnanf" (define "isnanf" (FunLike ["x"] "__builtin_isnan(x)")) ;;
  ifndef "isinff" (define "isinff" (FunLike ["x"] "__builtin_isinf(x)")) ;;
  ifndef "isfinitef"
    (define "isfinitef" (FunLike ["x"] "__builtin_isfinite(x)")) ;;
  ifndef "isnan" (define "isnan" (FunLike ["x"] "__builtin_isnan(x)")) ;;
  ifndef "isinf" (define "isinf" (FunLike ["x"] "__builtin_isinf(x)")) ;;
  ifndef "isfinite"
    (define "isfinite" (FunLike ["x"] "__builtin_isfinite(x)")) ;;
  ifndef "signbit" (define "signbit" (FunLike ["x"] "__builtin_signbit(x)")) ;;
  ifndef "fpclassify"
    (define "fpclassify" (FunLike ["x"] "__builtin_fpclassify(x)")) ;;
  ifdef "__arm64__"
    (undef "isnanf" ;; define "isnanf" (ObjLike "ios_isnanf") ;;
     undef "isinff" ;; define "isinff" (ObjLike "ios_isinff")).

(** The whole header: the include guard, [#include <math.h>] (whose
    effect on the table is the parameter [math_h]), then the block. *)
Definition ios_math_compat_h (math_h : directive) : directive :=
  ifndef "IOS_MATH_COMPAT_H"
    (define "IOS_MATH_COMPAT_H" (ObjLike "") ;; math_h ;; compat_macros).

(** The names the block may define, each with its fallback. *)
Definition fallbacks : list (string * macro) :=
  [ ("isnanf", FunLike ["x"] "__builtin_isnan(x)");
    ("isinff", FunLike ["x"] "__builtin_isinf(x)");
    ("isfinitef", FunLike ["x"] "__builtin_isfinite(x)");
    ("isnan", FunLike ["x"] "__builtin_isnan(x)");
    ("isinf", FunLike ["x"] "__builtin_isinf(x)");
    ("isfinite", FunLike ["x"] "__builtin_isfinite(x)");
    ("signbit", FunLike ["x"] "__builtin_signbit(x)");
    ("fpclassify", FunLike ["x"] "__builtin_fpclassify(x)") ].

(** The table the block leaves, written without directives. *)
Definition compat_result (e : table) : table :=
  let e8 :=
    or_default "fpclassify" (FunLike ["x"] "__builtin_fpclassify(x)")
      (or_default "signbit" (FunLike ["x"] "__builtin_signbit(x)")
      (or_default "isfinite" (FunLike ["x"] "__builtin_isfinite(x)")
      (or_default "isinf" (FunLike ["x"] "__builtin_isinf(x)")
      (or_default "isnan" (FunLike ["x"] "__builtin_isnan(x)")
      (or_default "isfinitef" (FunLike ["x"] "__builtin_isfinite(x)")
      (or_default "isinff" (FunLike ["x"] "__builtin_isinf(x)")
      (or_default "isnanf" (FunLike ["x"] "__builtin_isnan(x)") e))))))) in
  if defined "__arm64__" e8
  then replace "isinff" (ObjLike "ios_isinff")
         (replace "isnanf" (ObjLike "ios_isnanf") e8)
  else e8.

End MathCompatMacros.

(** * Properties *)

(** ** Machine-integer facts used below *)

Section UIntFacts.

Lemma modulus_32 : UInt.modulus 32 = 4294967296.
Proof. reflexivity. Qed.

Lemma modulus_64 : UInt.modulus 64 = 4294967296 * 4294967296.
Proof. reflexivity. Qed.

(** Masking with [0xffffffff] keeps the low 32 bits. *)
Lemma land_mask32 (x : Z) : Z.land x 0xffffffff = x mod 4294967296.
Proof.
  change 0xffffffff with (Z.ones 32).
  rewrite Z.land_ones by lia. reflexivity.
Qed.

(** Masking with [0x7fffffff] clears bit 31 and everything above. *)
Lemma land_mask31 (x : Z) : Z.land x 0x7fffffff = x mod 2147483648.
Proof.
  change 0x7fffffff with (Z.ones 31).
  rewrite Z.land_ones by lia. reflexivity.
Qed.

Lemma shr_32 (x : Z) : UInt.shr x 32 = x / 4294967296.
Proof.
  unfold UInt.shr. rewrite Z.shiftr_div_pow2 by lia. reflexivity.
Qed.

(** A 64-bit left shift by 32 drops the high half of its operand. *)
Lemma shl64_32 (x : Z) :
  UInt.shl 64 x 32 = (x mod 4294967296) * 4294967296.
Proof.
  unfold UInt.shl, UInt.wrap. rewrite modulus_64.
  rewrite Z.shiftl_mul_pow2 by lia.
  change (2 ^ 32) with 4294967296.
  rewrite Z.mul_mod_distr_r by lia. reflexivity.
Qed.

(** The two halves assembled by a 64-bit shift and a 32-bit mask share
    no bit. *)
Lemma halves_disjoint (s t : Z) :
  Z.land (UInt.shl 64 s 32) (Z.land t 0xffffffff) = 0.
Proof.
  rewrite shl64_32.
  change 4294967296 with (2 ^ 32) at 2.
  rewrite <- Z.shiftl_mul_pow2 by lia.
  change 0xffffffff with (Z.ones 32).
  apply Z.bits_inj'. intros n Hn.
  rewrite !Z.land_spec, Z.bits_0.
  destruct (Z.lt_ge_cases n 32) as [Hlo | Hhi].
  - rewrite Z.shiftl_spec_low by lia. reflexivity.
  - rewrite Z.ones_spec_high by lia.
    rewrite !andb_false_r. reflexivity.
Qed.

End UIntFacts.

(** ** Relocation-info helpers *)

Section RelocationInfo.

Import Elf.

(** The packed value in closed arithmetic form: the addition never wraps. *)
Lemma ELF64_R_INFO_arith (s t : Z) :
  ELF64_R_INFO s t = (s mod 4294967296) * 4294967296 + t mod 4294967296.
Proof.
  unfold ELF64_R_INFO, UInt.add, UInt.wrap.
  rewrite shl64_32, land_mask32, modulus_64.
  apply Z.mod_small.
  pose proof (Z.mod_pos_bound s 4294967296 ltac:(lia)).
  pose proof (Z.mod_pos_bound t 4294967296 ltac:(lia)).
  nia.
Qed.

Lemma ELF64_R_INFO_u64 (s t : Z) : u64 (ELF64_R_INFO s t).
Proof.
  unfold u64, UInt.in_range, ELF64_R_INFO, UInt.add, UInt.wrap.
  apply Z.mod_pos_bound. reflexivity.
Qed.

(** C1. For every u64 value [v], packing the symbol index and the
    relocation type extracted from [v] gives [v] back:
    [ELF64_R_INFO(ELF64_R_SYM(v), ELF64_R_TYPE(v)) == v]. *)
Theorem pack_extract_roundtrip (v : Z) (Hv : u64 v) :
  ELF64_R_INFO (ELF64_R_SYM v) (ELF64_R_TYPE v) = v.
Proof.
  unfold u64, UInt.in_range in Hv. rewrite modulus_64 in Hv.
  rewrite ELF64_R_INFO_arith.
  unfold ELF64_R_SYM, ELF64_R_TYPE.
  rewrite shr_32, land_mask32.
  rewrite Z.mod_mod by lia.
  rewrite (Z.mod_small (v / 4294967296)).
  - pose proof (Z.div_mod v 4294967296 ltac:(lia)). lia.
  - split.
    + apply Z.div_pos; lia.
    + apply Z.div_lt_upper_bound; lia.
Qed.

Lemma pack_extract_roundtrip_witness :
  u64 0xfedcba9876543210 /\
  ELF64_R_INFO (ELF64_R_SYM 0xfedcba9876543210)
               (ELF64_R_TYPE 0xfedcba9876543210) = 0xfedcba9876543210.
Proof.
  assert (H : u64 0xfedcba9876543210) by (split; [discriminate | reflexivity]).
  split; [exact H | exact (pack_extract_roundtrip 0xfedcba9876543210 H)].
Defined.

(** C2. For every u64 [s] and [t], [ELF64_R_INFO(s, t)] computed in
    64-bit modular arithmetic is [(s << 32) | (t & 0xffffffff)]; it is a
    u64 for every input, and a symbol index that does not fit in 32 bits
    contributes only its low 32 bits. *)
Theorem pack_is_shift_or_mask (s t : Z) (Hs : u64 s) (Ht : u64 t) :
  ELF64_R_INFO s t = Z.lor (UInt.shl 64 s 32) (Z.land t 0xffffffff) /\
  u64 (ELF64_R_INFO s t) /\
  ELF64_R_INFO s t = ELF64_R_INFO (Z.land s 0xffffffff) t.
Proof.
  split; [| split].
  - rewrite <- Z.lxor_lor by apply halves_disjoint.
    rewrite <- Z.add_nocarry_lxor by apply halves_disjoint.
    rewrite ELF64_R_INFO_arith, shl64_32, land_mask32. reflexivity.
  - apply ELF64_R_INFO_u64.
  - rewrite !ELF64_R_INFO_arith, land_mask32.
    rewrite Z.mod_mod by lia. reflexivity.
Qed.

Lemma pack_is_shift_or_mask_witness :
  u64 0x100000005 /\ u64 0xffffffff00000002 /\
  ELF64_R_INFO 0x100000005 0xffffffff00000002
    = Z.lor (UInt.shl 64 0x100000005 32) (Z.land 0xffffffff00000002 0xffffffff) /\
  u64 (ELF64_R_INFO 0x100000005 0xffffffff00000002) /\
  ELF64_R_INFO 0x100000005 0xffffffff00000002
    = ELF64_R_INFO (Z.land 0x100000005 0xffffffff) 0xffffffff00000002.
Proof.
  assert (Hs : u64 0x100000005) by (split; [discriminate | reflexivity]).
  assert (Ht : u64 0xffffffff00000002) by (split; [discriminate | reflexivity]).
  split; [exact Hs | split; [exact Ht |]].
  exact (pack_is_shift_or_mask 0x100000005 0xffffffff00000002 Hs Ht).
Defined.

(** C3. For every u64 [sym] and [type], extraction after packing returns
    the masked inputs: [ELF64_R_SYM(ELF64_R_INFO(sym, type))] is
    [sym & 0xffffffff] and [ELF64_R_TYPE(ELF64_R_INFO(sym, type))] is
    [type & 0xffffffff]. *)
Theorem extract_pack_masked (sym type : Z) (Hs : u64 sym) (Ht : u64 type) :
  ELF64_R_SYM (ELF64_R_INFO sym type) = Z.land sym 0xffffffff /\
  ELF64_R_TYPE (ELF64_R_INFO sym type) = Z.land type 0xffffffff.
Proof.
  unfold ELF64_R_SYM, ELF64_R_TYPE.
  rewrite shr_32, !land_mask32, ELF64_R_INFO_arith.
  pose proof (Z.mod_pos_bound sym 4294967296 ltac:(lia)) as Bs.
  pose proof (Z.mod_pos_bound type 4294967296 ltac:(lia)) as Bt.
  split.
  - rewrite Z.div_add_l by lia.
    rewrite (Z.div_small (type mod 4294967296)) by exact Bt. lia.
  - rewrite Z.add_comm, Z.mod_add by lia.
    apply Z.mod_small. exact Bt.
Qed.

Lemma extract_pack_masked_witness :
  u64 0xabcdef0123456789 /\ u64 0x1122334455667788 /\
  ELF64_R_SYM (ELF64_R_INFO 0xabcdef0123456789 0x1122334455667788)
    = Z.land 0xabcdef0123456789 0xffffffff /\
  ELF64_R_TYPE (ELF64_R_INFO 0xabcdef0123456789 0x1122334455667788)
    = Z.land 0x1122334455667788 0xffffffff.
Proof.
  assert (Hs : u64 0xabcdef0123456789) by (split; [discriminate | reflexivity]).
  assert (Ht : u64 0x1122334455667788) by (split; [discriminate | reflexivity]).
  split; [exact Hs | split; [exact Ht |]].
  exact (extract_pack_masked 0xabcdef0123456789 0x1122334455667788 Hs Ht).
Defined.

(** C7. Packing symbol index 5 with relocation type [R_X86_64_PC32],
    whose value is 2, yields 21474836482; extracting from 21474836482
    returns symbol index 5 and relocation type 2. *)
Theorem pack_5_PC32 :
  R_X86_64_PC32 = 2 /\
  ELF64_R_INFO 5 R_X86_64_PC32 = 21474836482 /\
  ELF64_R_SYM 21474836482 = 5 /\
  ELF64_R_TYPE 21474836482 = 2.
Proof. repeat split. Qed.

(** C9. For every u64 [info], both extraction results fit in 32 bits:
    [ELF64_R_SYM(info) < 2^32] and [ELF64_R_TYPE(info) < 2^32]. *)
Theorem extract_fits_32 (info : Z) (Hinfo : u64 info) :
  0 <= ELF64_R_SYM info < 2 ^ 32 /\ 0 <= ELF64_R_TYPE info < 2 ^ 32.
Proof.
  unfold u64, UInt.in_range in Hinfo. rewrite modulus_64 in Hinfo.
  unfold ELF64_R_SYM, ELF64_R_TYPE.
  rewrite shr_32, land_mask32.
  change (2 ^ 32) with 4294967296.
  split.
  - split.
    + apply Z.div_pos; lia.
    + apply Z.div_lt_upper_bound; lia.
  - apply Z.mod_pos_bound. lia.
Qed.

Lemma extract_fits_32_witness :
  u64 0xffffffffffffffff /\
  0 <= ELF64_R_SYM 0xffffffffffffffff < 2 ^ 32 /\
  0 <= ELF64_R_TYPE 0xffffffffffffffff < 2 ^ 32.
Proof.
  assert (H : u64 0xffffffffffffffff) by (split; [discriminate | reflexivity]).
  split; [exact H | exact (extract_fits_32 0xffffffffffffffff H)].
Defined.

End RelocationInfo.

(** ** Constant table and identification bytes *)

Section Constants.

Import Elf.

(** C5. Every named constant has the value of the constant table: file
    types 0..4, machine types 0, 3, 62, 183, class 1 and 2, data encoding
    1 and 2, versions 0 and 1, section types 0..11, section flags 0x1,
    0x2, 0x4 and 0xf0000000, symbol bindings 0..2, symbol types 0..6 and
    relocation types 0..14. *)
Theorem constant_table :
  (ET_NONE = 0 /\ ET_REL = 1 /\ ET_EXEC = 2 /\ ET_DYN = 3 /\ ET_CORE = 4) /\
  (EM_NONE = 0 /\ EM_386 = 3 /\ EM_X86_64 = 62 /\ EM_AARCH64 = 183) /\
  (ELFCLASS32 = 1 /\ ELFCLASS64 = 2) /\
  (ELFDATA2LSB = 1 /\ ELFDATA2MSB = 2) /\
  (EV_NONE = 0 /\ EV_CURRENT = 1) /\
  (SHT_NULL = 0 /\ SHT_PROGBITS = 1 /\ SHT_SYMTAB = 2 /\ SHT_STRTAB = 3 /\
   SHT_RELA = 4 /\ SHT_HASH = 5 /\ SHT_DYNAMIC = 6 /\ SHT_NOTE = 7 /\
   SHT_NOBITS = 8 /\ SHT_REL = 9 /\ SHT_SHLIB = 10 /\ SHT_DYNSYM = 11) /\
  (SHF_WRITE = 0x1 /\ SHF_ALLOC = 0x2 /\ SHF_EXECINSTR = 0x4 /\
   SHF_MASKPROC = 0xf0000000) /\
  (STB_LOCAL = 0 /\ STB_GLOBAL = 1 /\ STB_WEAK = 2) /\
  (STT_NOTYPE = 0 /\ STT_OBJECT = 1 /\ STT_FUNC = 2 /\ STT_SECTION = 3 /\
   STT_FILE = 4 /\ STT_COMMON = 5 /\ STT_TLS = 6) /\
  (R_X86_64_NONE = 0 /\ R_X86_64_64 = 1 /\ R_X86_64_PC32 = 2 /\
   R_X86_64_GOT32 = 3 /\ R_X86_64_PLT32 = 4 /\ R_X86_64_COPY = 5 /\
   R_X86_64_GLOB_DAT = 6 /\ R_X86_64_JUMP_SLOT = 7 /\
   R_X86_64_RELATIVE = 8 /\ R_X86_64_32 = 9 /\ R_X86_64_32S = 10 /\
   R_X86_64_16 = 11 /\ R_X86_64_PC16 = 12 /\ R_X86_64_8 = 13 /\
   R_X86_64_PC8 = 14).
Proof. repeat split. Qed.

(** The magic bytes, as numbers. *)
Lemma magic_values :
  [ELFMAG0; ELFMAG1; ELFMAG2; ELFMAG3] = [0x7f; 0x45; 0x4c; 0x46].
Proof. reflexivity. Qed.

(** The check inspects bytes 0 to 3 and nothing else. *)
Lemma ident_check_firstn (buf : list Z) :
  ident_check buf = ident_check (firstn 4 buf).
Proof.
  destruct buf as [| b0 [| b1 [| b2 [| b3 rest]]]]; reflexivity.
Qed.

(** C8. The four magic-byte constants are 0x7f, 0x45 ('E'), 0x4c ('L')
    and 0x46 ('F'), and a byte buffer passes the identification-byte
    check exactly when its first four bytes are 0x7f, 0x45, 0x4c, 0x46. *)
Theorem magic_bytes_check :
  ELFMAG0 = 0x7f /\ ELFMAG1 = 0x45 /\ ELFMAG2 = 0x4c /\ ELFMAG3 = 0x46 /\
  ELFMAG1 = char_const "E" /\ ELFMAG2 = char_const "L" /\
  ELFMAG3 = char_const "F" /\
  forall buf : list Z,
    ident_check buf = true <-> firstn 4 buf = [0x7f; 0x45; 0x4c; 0x46].
Proof.
  repeat (split; [reflexivity |]).
  intros buf.
  destruct buf as [| b0 [| b1 [| b2 [| b3 rest]]]];
    try (split; intros H; discriminate H).
  unfold ident_check.
  change ELFMAG0 with 127. change ELFMAG1 with 69.
  change ELFMAG2 with 76. change ELFMAG3 with 70.
  cbn [firstn].
  rewrite !andb_true_iff, !Z.eqb_eq.
  split.
  - intros [[[-> ->] ->] ->]. reflexivity.
  - intros H. injection H as -> -> -> ->. repeat split.
Qed.

End Constants.

(** ** Float classification on arm64 *)

Section FloatClassification.

Import MathCompat.

Lemma c_true_b2z (b : bool) : c_true (Z.b2z b) <-> b = true.
Proof.
  unfold c_true. destruct b; cbn; split; intros H; try reflexivity;
    try discriminate; try (exfalso; apply H; reflexivity).
Qed.

(** The sign-masked pattern is the exponent field above the fraction
    field. *)
Lemma masked_fields (x : Z) :
  Z.land x 0x7fffffff = exponent_of x * 8388608 + fraction_of x.
Proof.
  unfold exponent_of, fraction_of.
  rewrite land_mask31.
  change 0xff with (Z.ones 8). change 0x7fffff with (Z.ones 23).
  rewrite !Z.land_ones, Z.shiftr_div_pow2 by lia.
  change (2 ^ 8) with 256. change (2 ^ 23) with 8388608.
  change 2147483648 with (8388608 * 256).
  rewrite Z.rem_mul_r by lia. lia.
Qed.

Lemma exponent_bound (x : Z) : 0 <= exponent_of x < 256.
Proof.
  unfold exponent_of. change 0xff with (Z.ones 8).
  rewrite Z.land_ones by lia. apply Z.mod_pos_bound. reflexivity.
Qed.

Lemma fraction_bound (x : Z) : 0 <= fraction_of x < 8388608.
Proof.
  unfold fraction_of. change 0x7fffff with (Z.ones 23).
  rewrite Z.land_ones by lia. apply Z.mod_pos_bound. reflexivity.
Qed.

(** The bit test of [ios_isnanf] is the binary32 reading of NaN: all
    exponent bits set and a non-zero fraction. *)
Lemma ios_isnanf_fields (x : Z) :
  c_true (ios_isnanf x) <-> exponent_of x = 255 /\ fraction_of x <> 0.
Proof.
  unfold ios_isnanf. rewrite c_true_b2z, Z.gtb_lt, masked_fields.
  pose proof (exponent_bound x). pose proof (fraction_bound x). lia.
Qed.

(** The bit test of [ios_isinff] is the binary32 reading of an
    infinity: all exponent bits set and a zero fraction. *)
Lemma ios_isinff_fields (x : Z) :
  c_true (ios_isinff x) <-> exponent_of x = 255 /\ fraction_of x = 0.
Proof.
  unfold ios_isinff. rewrite c_true_b2z, Z.eqb_eq, masked_fields.
  pose proof (exponent_bound x). pose proof (fraction_bound x). lia.
Qed.

(** C6. On arm64, for every 32-bit float bit pattern [b], [ios_isnanf]
    is true iff [(b & 0x7fffffff) > 0x7f800000] and [ios_isinff] is true
    iff [(b & 0x7fffffff) == 0x7f800000]; hence 0x7f800000 is infinite
    and not NaN, 0x7fc00000 is NaN and not infinite, and 0x3f800000 is
    neither. *)
Theorem bit_pattern_classification :
  (forall b : Z, u32 b ->
     (c_true (ios_isnanf b) <-> Z.land b 0x7fffffff > 0x7f800000) /\
     (c_true (ios_isinff b) <-> Z.land b 0x7fffffff = 0x7f800000)) /\
  (c_true (ios_isinff 0x7f800000) /\ ~ c_true (ios_isnanf 0x7f800000)) /\
  (c_true (ios_isnanf 0x7fc00000) /\ ~ c_true (ios_isinff 0x7fc00000)) /\
  (~ c_true (ios_isnanf 0x3f800000) /\ ~ c_true (ios_isinff 0x3f800000)).
Proof.
  assert (Hnan : forall b,
             c_true (ios_isnanf b) <-> Z.land b 0x7fffffff > 0x7f800000).
  { intros b. unfold ios_isnanf. rewrite c_true_b2z, Z.gtb_lt. lia. }
  assert (Hinf : forall b,
             c_true (ios_isinff b) <-> Z.land b 0x7fffffff = 0x7f800000).
  { intros b. unfold ios_isinff. rewrite c_true_b2z, Z.eqb_eq. reflexivity. }
  split.
  - intros b _. split; [apply Hnan | apply Hinf].
  - rewrite !Hnan, !Hinf. cbn. lia.
Qed.

Lemma bit_pattern_classification_witness :
  u32 0xffc00001 /\
  (c_true (ios_isnanf 0xffc00001)
     <-> Z.land 0xffc00001 0x7fffffff > 0x7f800000) /\
  (c_true (ios_isinff 0xffc00001)
     <-> Z.land 0xffc00001 0x7fffffff = 0x7f800000).
Proof.
  assert (H : u32 0xffc00001) by (split; [discriminate | reflexivity]).
  split; [exact H |].
  exact (proj1 bit_pattern_classification 0xffc00001 H).
Defined.

(** C10. For every 32-bit float bit pattern, [ios_isnanf] and
    [ios_isinff] are never both true. *)
Theorem nan_inf_exclusive (b : Z) (Hb : u32 b) :
  ~ (c_true (ios_isnanf b) /\ c_true (ios_isinff b)).
Proof.
  unfold ios_isnanf, ios_isinff.
  rewrite !c_true_b2z, Z.gtb_lt, Z.eqb_eq. lia.
Qed.

Lemma nan_inf_exclusive_witness :
  u32 0x7f800000 /\
  ~ (c_true (ios_isnanf 0x7f800000) /\ c_true (ios_isinff 0x7f800000)).
Proof.
  assert (H : u32 0x7f800000) by (split; [discriminate | reflexivity]).
  split; [exact H | exact (nan_inf_exclusive 0x7f800000 H)].
Defined.

End FloatClassification.

(** ** Record layouts *)

Section LayoutFacts.

Import Layout.

Local Open Scope nat_scope.

Lemma length_le_split (n : nat) (v : Z) : List.length (le_split n v) = n.
Proof.
  revert v. induction n as [| n IH]; intros v; cbn [le_split List.length].
  - reflexivity.
  - rewrite IH. reflexivity.
Qed.

Lemma length_encode_elems (sz n : nat) (elems : list Z) :
  List.length (encode_elems sz n elems) = sz * n.
Proof.
  revert elems. induction n as [| n IH]; intros elems; cbn [encode_elems].
  - cbn. lia.
  - rewrite length_app, length_le_split, IH. lia.
Qed.

Lemma length_encode_member (m : member) (elems : list Z) :
  List.length (encode_member m elems) = member_size m.
Proof. apply length_encode_elems. Qed.

Lemma place_cons (off : nat) (m : member) (rest : list member) :
  place off (m :: rest) =
  let start := align_up off (alignof (m_type m)) in
  ((m_name m, start) :: fst (place (start + member_size m) rest),
   snd (place (start + member_size m) rest)).
Proof.
  cbn [place].
  destruct (place (align_up off (alignof (m_type m)) + member_size m) rest).
  reflexivity.
Qed.

(** Placement only moves forward. *)
Lemma place_end_ge (ms : list member) (off : nat) : off <= snd (place off ms).
Proof.
  revert off. induction ms as [| m rest IH]; intros off.
  - cbn. lia.
  - rewrite place_cons. cbn [snd].
    specialize (IH (align_up off (alignof (m_type m)) + member_size m)).
    unfold align_up in *. lia.
Qed.

Lemma place_offset_ge (ms : list member) (off k : nat) (x : string) (o : nat) :
  nth_error (fst (place off ms)) k = Some (x, o) -> off <= o.
Proof.
  revert off k. induction ms as [| m rest IH]; intros off k H.
  - destruct k; discriminate H.
  - rewrite place_cons in H. cbn [fst] in H.
    destruct k as [| k]; cbn [nth_error] in H.
    + injection H as _ <-. unfold align_up. lia.
    + apply IH in H. unfold align_up in H. lia.
Qed.

(** The serialized members fill exactly the span computed by [place]. *)
Lemma length_serialize_from (ms : list member) (off : nat) (vals : list (list Z)) :
  List.length (serialize_from off ms vals) = snd (place off ms) - off.
Proof.
  revert off vals. induction ms as [| m rest IH]; intros off vals.
  - cbn. lia.
  - rewrite place_cons. cbn [snd serialize_from].
    rewrite !length_app, repeat_length, length_encode_member, IH.
    pose proof (place_end_ge rest
                  (align_up off (alignof (m_type m)) + member_size m)) as Hge.
    unfold align_up in *. lia.
Qed.

(** A record serializes to [sizeof] bytes, whatever its member values. *)
Lemma length_serialize (ms : list member) (vals : list (list Z)) :
  List.length (serialize ms vals) = struct_size ms.
Proof.
  unfold serialize, struct_size, align_up.
  rewrite length_app, repeat_length, length_serialize_from. lia.
Qed.

Lemma firstn_app_full {A : Type} (n : nat) (l l' : list A) :
  List.length (firstn n l) = n -> firstn n (l ++ l') = firstn n l.
Proof.
  intros H. rewrite length_firstn in H.
  rewrite firstn_app.
  replace (n - List.length l) with 0 by lia.
  cbn [firstn]. apply app_nil_r.
Qed.

(** Each member's bytes start where [place] says, relative to the start
    of the serialized span. *)
Lemma bytes_at_serialize_from (ms : list member) :
  forall (off k : nat) (m : member) (o : nat) (vals : list (list Z)),
    nth_error ms k = Some m ->
    nth_error (fst (place off ms)) k = Some (m_name m, o) ->
    bytes_at (o - off) (member_size m) (serialize_from off ms vals)
      = encode_member m (nth k vals []).
Proof.
  induction ms as [| m0 rest IH]; intros off k m o vals Hm Ho.
  - destruct k; discriminate Hm.
  - rewrite place_cons in Ho. cbn [fst] in Ho.
    cbn [serialize_from]. unfold bytes_at.
    destruct k as [| k]; cbn [nth_error] in Hm, Ho.
    + injection Hm as ->. injection Ho as <-.
      unfold align_up.
      replace (off + padding off (alignof (m_type m)) - off)
        with (padding off (alignof (m_type m))) by lia.
      rewrite skipn_app, repeat_length, Nat.sub_diag.
      rewrite skipn_all2 by (rewrite repeat_length; lia).
      cbn [skipn app].
      rewrite firstn_app, length_encode_member, Nat.sub_diag.
      rewrite firstn_all2 by (rewrite length_encode_member; lia).
      cbn [firstn]. rewrite app_nil_r.
      destruct vals; reflexivity.
    + pose proof (place_offset_ge _ _ _ _ _ Ho) as Hge.
      unfold align_up in Hge, Ho.
      rewrite app_assoc, skipn_app.
      rewrite length_app, repeat_length, length_encode_member.
      rewrite skipn_all2
        by (rewrite length_app, repeat_length, length_encode_member; lia).
      cbn [app].
      replace (o - off - (padding off (alignof (m_type m0)) + member_size m0))
        with (o - (off + padding off (alignof (m_type m0)) + member_size m0))
        by lia.
      specialize (IH _ k m o (tl vals) Hm Ho). unfold bytes_at in IH.
      rewrite IH. destruct vals; [destruct k |]; reflexivity.
Qed.

(** The same in a whole serialized record: tail padding does not
    disturb the members. *)
Lemma bytes_at_serialize (ms : list member) (k : nat) (m : member) (o : nat)
    (vals : list (list Z)) :
  nth_error ms k = Some m ->
  nth_error (offsets ms) k = Some (m_name m, o) ->
  bytes_at o (member_size m) (serialize ms vals)
    = encode_member m (nth k vals []).
Proof.
  intros Hm Ho.
  pose proof (bytes_at_serialize_from ms 0 k m o vals Hm Ho) as H.
  rewrite Nat.sub_0_r in H.
  unfold serialize, bytes_at in *.
  rewrite skipn_app, firstn_app_full; [exact H |].
  rewrite H. apply length_encode_member.
Qed.

(** The three computed facts are all it takes. *)
Lemma exact_layout_intro {R : Type} (ms : list member)
    (values : R -> list (list Z)) (size : nat) :
  struct_size ms = size ->
  packed_size ms = size ->
  offsets ms = packed_offsets ms ->
  exact_layout ms values size.
Proof.
  intros Hsize Hpacked Hoffs.
  unfold exact_layout. repeat (split; [assumption |]).
  intros r. split.
  - rewrite length_serialize. exact Hsize.
  - intros k m o Hm Ho. rewrite <- Hoffs in Ho.
    apply bytes_at_serialize; assumption.
Qed.

End LayoutFacts.

Section RecordLayouts.

Import Layout Elf.

Local Open Scope nat_scope.

(** Reading a serialized integer back gives its value modulo the width. *)
Lemma le_combine_split (n : nat) (v : Z) :
  le_combine (le_split n v) = (v mod 256 ^ Z.of_nat n)%Z.
Proof.
  revert v. induction n as [| n IH]; intros v; cbn [le_split le_combine].
  - cbn. rewrite Z.mod_1_r. reflexivity.
  - rewrite IH, Nat2Z.inj_succ, Z.pow_succ_r by lia.
    rewrite Z.rem_mul_r by lia. reflexivity.
Qed.

(** The offsets the alignment rule assigns, member by member. *)
Lemma Elf64_Ehdr_offsets :
  offsets Elf64_Ehdr_decl =
  [ ("e_ident", 0); ("e_type", 16); ("e_machine", 18); ("e_version", 20);
    ("e_entry", 24); ("e_phoff", 32); ("e_shoff", 40); ("e_flags", 48);
    ("e_ehsize", 52); ("e_phentsize", 54); ("e_phnum", 56);
    ("e_shentsize", 58); ("e_shnum", 60); ("e_shstrndx", 62) ]%string.
Proof. reflexivity. Qed.

Lemma Elf64_Shdr_offsets :
  offsets Elf64_Shdr_decl =
  [ ("sh_name", 0); ("sh_type", 4); ("sh_flags", 8); ("sh_addr", 16);
    ("sh_offset", 24); ("sh_size", 32); ("sh_link", 40); ("sh_info", 44);
    ("sh_addralign", 48); ("sh_entsize", 56) ]%string.
Proof. reflexivity. Qed.

Lemma Elf64_Sym_offsets :
  offsets Elf64_Sym_decl =
  [ ("st_name", 0); ("st_info", 4); ("st_other", 5); ("st_shndx", 6);
    ("st_value", 8); ("st_size", 16) ]%string.
Proof. reflexivity. Qed.

Lemma Elf64_Rela_offsets :
  offsets Elf64_Rela_decl =
  [ ("r_offset", 0); ("r_info", 8); ("r_addend", 16) ]%string.
Proof. reflexivity. Qed.

(** A structure that the rule does pad, for contrast. *)
Example padded_struct :
  let ms := [ Member "c" UChar 1; Member "q" UInt64 1; Member "h" UInt16 1 ] in
  offsets ms = [ ("c", 0); ("q", 8); ("h", 16) ]%string /\
  packed_offsets ms = [ ("c", 0); ("q", 1); ("h", 9) ]%string /\
  struct_size ms = 24 /\ packed_size ms = 11.
Proof. repeat split. Qed.

(** A symbol entry, byte by byte. *)
Example serialize_sym :
  serialize Elf64_Sym_decl
    (Elf64_Sym_values
       {| st_name := 1; st_info := 0x12; st_other := 3; st_shndx := 0x0405;
          st_value := 0x400000; st_size := 7 |})
  = [ 1; 0; 0; 0;  0x12;  3;  5; 4;
      0; 0; 0x40; 0; 0; 0; 0; 0;
      7; 0; 0; 0; 0; 0; 0; 0 ]%Z.
Proof. reflexivity. Qed.

(** C4. Each of the four record layouts, serialized with its declared
    field order and widths, occupies exactly its documented size --
    [Elf64_Ehdr] 64 bytes, [Elf64_Shdr] 64 bytes, [Elf64_Sym] 24 bytes,
    [Elf64_Rela] 24 bytes -- with every field at the byte offset
    determined by the declared order and widths: the alignment rule
    inserts no padding. *)
Theorem record_layouts :
  exact_layout Elf64_Ehdr_decl Elf64_Ehdr_values 64 /\
  exact_layout Elf64_Shdr_decl Elf64_Shdr_values 64 /\
  exact_layout Elf64_Sym_decl Elf64_Sym_values 24 /\
  exact_layout Elf64_Rela_decl Elf64_Rela_values 24.
Proof.
  split; [| split; [| split]]; apply exact_layout_intro; reflexivity.
Qed.

Lemma record_layouts_witness :
  let r := {| r_offset := 0x1000; r_info := ELF64_R_INFO 5 R_X86_64_PC32;
              r_addend := (-4)%Z |} in
  let m := Member "r_info" UInt64 1 in
  nth_error Elf64_Rela_decl 1 = Some m /\
  nth_error (packed_offsets Elf64_Rela_decl) 1 = Some (m_name m, 8) /\
  List.length (serialize Elf64_Rela_decl (Elf64_Rela_values r)) = 24 /\
  bytes_at 8 (member_size m) (serialize Elf64_Rela_decl (Elf64_Rela_values r))
    = encode_member m (nth 1 (Elf64_Rela_values r) []).
Proof.
  intros r m.
  assert (Hm : nth_error Elf64_Rela_decl 1 = Some m) by reflexivity.
  assert (Ho : nth_error (packed_offsets Elf64_Rela_decl) 1 = Some (m_name m, 8))
    by reflexivity.
  destruct record_layouts as [_ [_ [_ [_ [_ [_ Hrela]]]]]].
  destruct (Hrela r) as [Hlen Hat].
  split; [exact Hm | split; [exact Ho | split; [exact Hlen |]]].
  exact (Hat 1 m 8 Hm Ho).
Defined.

End RecordLayouts.

(** * Further properties of the headers *)

(** ** Relocation info: collisions, order, and the relocation constants *)

Section RelocationInfoMore.

Import Elf.

Lemma u32_bounds (v : Z) : u32 v -> 0 <= v < 4294967296.
Proof. intros H. exact H. Qed.

(** X1. Two packed values coincide exactly when the symbol indices agree
    on their low 32 bits and the types agree on their low 32 bits: the
    high halves of both arguments are the only information lost. *)
Theorem pack_collision (s t s' t' : Z)
    (Hs : u64 s) (Ht : u64 t) (Hs' : u64 s') (Ht' : u64 t') :
  ELF64_R_INFO s t = ELF64_R_INFO s' t' <->
  Z.land s 0xffffffff = Z.land s' 0xffffffff /\
  Z.land t 0xffffffff = Z.land t' 0xffffffff.
Proof.
  rewrite !ELF64_R_INFO_arith, !land_mask32.
  pose proof (Z.mod_pos_bound s 4294967296 ltac:(lia)).
  pose proof (Z.mod_pos_bound s' 4294967296 ltac:(lia)).
  pose proof (Z.mod_pos_bound t 4294967296 ltac:(lia)).
  pose proof (Z.mod_pos_bound t' 4294967296 ltac:(lia)).
  lia.
Qed.

Lemma pack_collision_witness :
  u64 0x700000005 /\ u64 0x900000002 /\ u64 5 /\ u64 2 /\
  (ELF64_R_INFO 0x700000005 0x900000002 = ELF64_R_INFO 5 2 <->
   Z.land 0x700000005 0xffffffff = Z.land 5 0xffffffff /\
   Z.land 0x900000002 0xffffffff = Z.land 2 0xffffffff).
Proof.
  assert (H1 : u64 0x700000005) by (split; [discriminate | reflexivity]).
  assert (H2 : u64 0x900000002) by (split; [discriminate | reflexivity]).
  assert (H3 : u64 5) by (split; [discriminate | reflexivity]).
  assert (H4 : u64 2) by (split; [discriminate | reflexivity]).
  repeat (split; [assumption |]).
  exact (pack_collision 0x700000005 0x900000002 5 2 H1 H2 H3 H4).
Defined.

(** X2. On arguments that fit in 32 bits the packed values are ordered
    like the pairs (symbol index, type), symbol index first. *)
Theorem pack_order (s t s' t' : Z)
    (Hs : u32 s) (Ht : u32 t) (Hs' : u32 s') (Ht' : u32 t') :
  ELF64_R_INFO s t < ELF64_R_INFO s' t' <-> s < s' \/ (s = s' /\ t < t').
Proof.
  apply u32_bounds in Hs, Ht, Hs', Ht'.
  rewrite !ELF64_R_INFO_arith.
  rewrite !Z.mod_small by assumption.
  lia.
Qed.

Lemma pack_order_witness :
  u32 5 /\ u32 0xffffffff /\ u32 6 /\ u32 0 /\
  (ELF64_R_INFO 5 0xffffffff < ELF64_R_INFO 6 0 <->
   5 < 6 \/ (5 = 6 /\ 0xffffffff < 0)).
Proof.
  assert (H1 : u32 5) by (split; [discriminate | reflexivity]).
  assert (H2 : u32 0xffffffff) by (split; [discriminate | reflexivity]).
  assert (H3 : u32 6) by (split; [discriminate | reflexivity]).
  assert (H4 : u32 0) by (split; [discriminate | reflexivity]).
  repeat (split; [assumption |]).
  exact (pack_order 5 0xffffffff 6 0 H1 H2 H3 H4).
Defined.

(** X3. Every relocation type constant of the header survives packing
    with any 32-bit symbol index: extraction returns the symbol index and
    the constant itself. *)
Theorem relocation_constants_roundtrip (c sym : Z)
    (Hc : In c [ R_X86_64_NONE; R_X86_64_64; R_X86_64_PC32; R_X86_64_GOT32;
                 R_X86_64_PLT32; R_X86_64_COPY; R_X86_64_GLOB_DAT;
                 R_X86_64_JUMP_SLOT; R_X86_64_RELATIVE; R_X86_64_32;
                 R_X86_64_32S; R_X86_64_16; R_X86_64_PC16; R_X86_64_8;
                 R_X86_64_PC8 ])
    (Hsym : u32 sym) :
  ELF64_R_SYM (ELF64_R_INFO sym c) = sym /\
  ELF64_R_TYPE (ELF64_R_INFO sym c) = c.
Proof.
  apply u32_bounds in Hsym.
  assert (Hcr : 0 <= c < 4294967296).
  { cbn [In] in Hc.
    repeat (destruct Hc as [<- | Hc]; [cbv; split; congruence |]).
    contradiction. }
  unfold ELF64_R_SYM, ELF64_R_TYPE.
  rewrite shr_32, land_mask32, ELF64_R_INFO_arith.
  rewrite !Z.mod_small by assumption.
  split.
  - rewrite Z.div_add_l, Z.div_small by lia. lia.
  - rewrite Z.add_comm, Z.mod_add by lia. apply Z.mod_small. assumption.
Qed.

Lemma relocation_constants_roundtrip_witness :
  u32 0xfffffffe /\
  ELF64_R_SYM (ELF64_R_INFO 0xfffffffe R_X86_64_PC8) = 0xfffffffe /\
  ELF64_R_TYPE (ELF64_R_INFO 0xfffffffe R_X86_64_PC8) = R_X86_64_PC8.
Proof.
  assert (H : u32 0xfffffffe) by (split; [discriminate | reflexivity]).
  split; [exact H |].
  apply (relocation_constants_roundtrip R_X86_64_PC8 0xfffffffe);
    [cbn [In]; do 14 right; left; reflexivity | exact H].
Defined.

End RelocationInfoMore.

(** ** Section flags and the symbol constant families *)

Section FlagsAndFamilies.

Import Elf.

(** X4. The three access flags are independent bits outside the
    processor-specific mask: in a flags word or-ed together from any
    choice of them and any processor-specific bits [p], each test
    [flags & SHF_x] answers exactly whether [SHF_x] was chosen, and
    [flags & SHF_MASKPROC] gives [p] back. *)
Theorem section_flags_independent (w a x : bool) (p : Z)
    (Hp : Z.land p SHF_MASKPROC = p) :
  let flags :=
    Z.lor (Z.lor (Z.lor (if w then SHF_WRITE else 0)
                        (if a then SHF_ALLOC else 0))
                 (if x then SHF_EXECINSTR else 0)) p in
  (Z.land flags SHF_WRITE <> 0 <-> w = true) /\
  (Z.land flags SHF_ALLOC <> 0 <-> a = true) /\
  (Z.land flags SHF_EXECINSTR <> 0 <-> x = true) /\
  Z.land flags SHF_MASKPROC = p.
Proof.
  intros flags. subst flags.
  assert (Hout : forall c, Z.land SHF_MASKPROC c = 0 -> Z.land p c = 0).
  { intros c Hc. rewrite <- Hp, <- Z.land_assoc, Hc. apply Z.land_0_r. }
  rewrite !Z.land_lor_distr_l.
  rewrite (Hout SHF_WRITE), (Hout SHF_ALLOC), (Hout SHF_EXECINSTR)
    by reflexivity.
  rewrite Hp.
  destruct w, a, x; cbn; repeat split; intros; congruence.
Qed.

Lemma section_flags_independent_witness :
  Z.land 0x30000000 SHF_MASKPROC = 0x30000000 /\
  (Z.land (Z.lor (Z.lor (Z.lor SHF_WRITE 0) SHF_EXECINSTR) 0x30000000)
          SHF_WRITE <> 0 <-> true = true) /\
  (Z.land (Z.lor (Z.lor (Z.lor SHF_WRITE 0) SHF_EXECINSTR) 0x30000000)
          SHF_ALLOC <> 0 <-> false = true) /\
  (Z.land (Z.lor (Z.lor (Z.lor SHF_WRITE 0) SHF_EXECINSTR) 0x30000000)
          SHF_EXECINSTR <> 0 <-> true = true) /\
  Z.land (Z.lor (Z.lor (Z.lor SHF_WRITE 0) SHF_EXECINSTR) 0x30000000)
         SHF_MASKPROC = 0x30000000.
Proof.
  assert (Hp : Z.land 0x30000000 SHF_MASKPROC = 0x30000000) by reflexivity.
  split; [exact Hp |].
  exact (section_flags_independent true false true 0x30000000 Hp).
Defined.

(** X5. [STB_NUM] and [STT_NUM] count their families: the symbol
    bindings are the numbers below [STB_NUM] and the symbol types the
    numbers below [STT_NUM], each taken once, in order of declaration. *)
Theorem symbol_family_counts :
  [STB_LOCAL; STB_GLOBAL; STB_WEAK]
    = map Z.of_nat (seq 0 (Z.to_nat STB_NUM)) /\
  [STT_NOTYPE; STT_OBJECT; STT_FUNC; STT_SECTION; STT_FILE; STT_COMMON;
   STT_TLS]
    = map Z.of_nat (seq 0 (Z.to_nat STT_NUM)).
Proof. split; reflexivity. Qed.

End FlagsAndFamilies.

(** ** Float classification: encodings, sign, finite patterns *)

Section FloatClassificationMore.

Import MathCompat.

(** The exponent mask selects the exponent field in place. *)
Lemma exponent_mask (x : Z) :
  Z.land x 0x7f800000 = exponent_of x * 8388608.
Proof.
  unfold exponent_of.
  change 8388608 with (2 ^ 23). rewrite <- Z.shiftl_mul_pow2 by lia.
  change 0x7f800000 with (Z.shiftl 0xff 23).
  apply Z.bits_inj'. intros n Hn.
  rewrite Z.land_spec.
  destruct (Z.lt_ge_cases n 23) as [Hlo | Hhi].
  - rewrite !Z.shiftl_spec_low by lia. apply andb_false_r.
  - rewrite !Z.shiftl_spec by lia.
    rewrite Z.land_spec, Z.shiftr_spec by lia.
    replace (n - 23 + 23) with n by lia. reflexivity.
Qed.

(** X6. [ios_isnanf] accepts exactly the binary32 encodings of NaN: all
    eight exponent bits set and at least one fraction bit set, quiet or
    signalling, of either sign. *)
Theorem ios_isnanf_encoding (b : Z) (Hb : u32 b) :
  c_true (ios_isnanf b) <->
  Z.land b 0x7f800000 = 0x7f800000 /\ Z.land b 0x007fffff <> 0.
Proof.
  rewrite ios_isnanf_fields, exponent_mask.
  unfold fraction_of. lia.
Qed.

Lemma ios_isnanf_encoding_witness :
  u32 0xff800001 /\
  (c_true (ios_isnanf 0xff800001) <->
   Z.land 0xff800001 0x7f800000 = 0x7f800000 /\
   Z.land 0xff800001 0x007fffff <> 0).
Proof.
  assert (H : u32 0xff800001) by (split; [discriminate | reflexivity]).
  split; [exact H | exact (ios_isnanf_encoding 0xff800001 H)].
Defined.

(** X7. [ios_isinff] returns 1 on the two infinities, [0x7f800000] and
    [0xff800000], and 0 on every other 32-bit pattern; unlike an [isinf]
    that reports the sign, it never returns a negative value. *)
Theorem ios_isinff_two_patterns (b : Z) (Hb : u32 b) :
  ios_isinff b = if (b =? 0x7f800000) || (b =? 0xff800000) then 1 else 0.
Proof.
  unfold ios_isinff. rewrite land_mask31.
  assert (Hr : 0 <= b < 4294967296) by exact Hb.
  assert (Hm : b mod 2147483648 = b \/ b mod 2147483648 = b - 2147483648).
  { destruct (Z.lt_ge_cases b 2147483648).
    - left. apply Z.mod_small. lia.
    - right. symmetry. apply (Z.mod_unique b 2147483648 1); lia. }
  pose proof (Z.mod_pos_bound b 2147483648 ltac:(lia)) as Hlt.
  destruct (Z.eqb_spec b 0x7f800000), (Z.eqb_spec b 0xff800000),
    (Z.eqb_spec (b mod 2147483648) 0x7f800000);
    cbn [Z.b2z orb]; try reflexivity; lia.
Qed.

Lemma ios_isinff_two_patterns_witness :
  u32 0xff800000 /\
  ios_isinff 0xff800000
    = if (0xff800000 =? 0x7f800000) || (0xff800000 =? 0xff800000)
      then 1 else 0.
Proof.
  assert (H : u32 0xff800000) by (split; [discriminate | reflexivity]).
  split; [exact H | exact (ios_isinff_two_patterns 0xff800000 H)].
Defined.

(** X8. Both classifications ignore the sign bit: flipping bit 31, which
    is what negating the float does, changes neither result. *)
Theorem classification_ignores_sign (b : Z) (Hb : u32 b) :
  ios_isnanf (Z.lxor b 0x80000000) = ios_isnanf b /\
  ios_isinff (Z.lxor b 0x80000000) = ios_isinff b.
Proof.
  assert (Hmask : Z.land (Z.lxor b 0x80000000) 0x7fffffff
                  = Z.land b 0x7fffffff).
  { change 0x7fffffff with (Z.ones 31). change 0x80000000 with (2 ^ 31).
    apply Z.bits_inj'. intros n Hn.
    rewrite !Z.land_spec, Z.lxor_spec, Z.pow2_bits_eqb by lia.
    destruct (Z.lt_ge_cases n 31) as [Hlo | Hhi].
    - rewrite (proj2 (Z.eqb_neq 31 n)) by lia.
      rewrite xorb_false_r. reflexivity.
    - rewrite Z.ones_spec_high by lia.
      rewrite !andb_false_r. reflexivity. }
  unfold ios_isnanf, ios_isinff. rewrite Hmask. split; reflexivity.
Qed.

Lemma classification_ignores_sign_witness :
  u32 0x7fc00000 /\
  ios_isnanf (Z.lxor 0x7fc00000 0x80000000) = ios_isnanf 0x7fc00000 /\
  ios_isinff (Z.lxor 0x7fc00000 0x80000000) = ios_isinff 0x7fc00000.
Proof.
  assert (H : u32 0x7fc00000) by (split; [discriminate | reflexivity]).
  split; [exact H | exact (classification_ignores_sign 0x7fc00000 H)].
Defined.

(** X9. Neither function fires exactly on the finite encodings: both
    return 0 if and only if the exponent bits are not all set (zeros,
    subnormal and normal numbers). *)
Theorem finite_patterns (b : Z) (Hb : u32 b) :
  ios_isnanf b = 0 /\ ios_isinff b = 0 <-> Z.land b 0x7f800000 <> 0x7f800000.
Proof.
  rewrite exponent_mask.
  unfold ios_isnanf, ios_isinff. rewrite masked_fields.
  pose proof (exponent_bound b). pose proof (fraction_bound b).
  destruct (Z.gtb_spec (exponent_of b * 8388608 + fraction_of b) 0x7f800000),
    (Z.eqb_spec (exponent_of b * 8388608 + fraction_of b) 0x7f800000);
    cbn [Z.b2z]; lia.
Qed.

Lemma finite_patterns_witness :
  u32 0x807fffff /\
  (ios_isnanf 0x807fffff = 0 /\ ios_isinff 0x807fffff = 0 <->
   Z.land 0x807fffff 0x7f800000 <> 0x7f800000).
Proof.
  assert (H : u32 0x807fffff) by (split; [discriminate | reflexivity]).
  split; [exact H | exact (finite_patterns 0x807fffff H)].
Defined.

End FloatClassificationMore.

(** ** The macro block of ios-math-compat.h *)

Section MacroBlock.

Import Cpp MathCompatMacros.

Local Open Scope string_scope.
Local Open Scope cpp_scope.

Lemma or_default_same (n : string) (b : macro) (e : table) :
  or_default n b e n = Some (match e n with Some d => d | None => b end).
Proof.
  unfold or_default, defined.
  destruct (e n) as [d |] eqn:En; [exact En |].
  unfold bind. rewrite String.eqb_refl. reflexivity.
Qed.

Lemma or_default_other (n : string) (b : macro) (e : table) (k : string) :
  String.eqb k n = false -> or_default n b e k = e k.
Proof.
  intros Hk. unfold or_default, defined.
  destruct (e n); [reflexivity |].
  unfold bind. rewrite Hk. reflexivity.
Qed.

Lemma replace_same (n : string) (b : macro) (e : table) :
  replace n b e n = Some b.
Proof. unfold replace, bind. rewrite String.eqb_refl. reflexivity. Qed.

Lemma replace_other (n : string) (b : macro) (e : table) (k : string) :
  String.eqb k n = false -> replace n b e k = e k.
Proof.
  intros Hk. unfold replace, bind, unbind. rewrite Hk. reflexivity.
Qed.

Lemma eqb_other (k n : string) : k <> n -> String.eqb k n = false.
Proof. intros H. apply String.eqb_neq. exact H. Qed.

(** Looks a name up through the layers of a table, outermost first. *)
Ltac peel side :=
  repeat first
    [ rewrite or_default_same
    | rewrite replace_same
    | rewrite or_default_other by side
    | rewrite replace_other by side ].

(** A guarded definition cannot fail. *)
Lemma seq_ifndef_define (n : string) (b : macro) (k : directive) (e : table) :
  (ifndef n (define n b) ;; k) e = k (or_default n b e).
Proof.
  unfold seq, ifndef, define, or_default, defined.
  destruct (e n); reflexivity.
Qed.

(** Nor can a definition that follows the [#undef] of its name. *)
Lemma undef_define (n : string) (b : macro) (e : table) :
  (undef n ;; define n b) e = Some (replace n b e).
Proof.
  unfold seq, undef, define, replace, unbind.
  rewrite String.eqb_refl. reflexivity.
Qed.

Lemma seq_undef_define (n : string) (b : macro) (k : directive) (e : table) :
  (undef n ;; define n b ;; k) e = k (replace n b e).
Proof.
  unfold seq, undef, define, replace, unbind.
  rewrite String.eqb_refl. reflexivity.
Qed.

(** What the block computes. *)
Lemma compat_macros_eval (e : table) :
  compat_macros e = Some (compat_result e).
Proof.
  unfold compat_macros, compat_result.
  rewrite !seq_ifndef_define.
  unfold ifdef.
  destruct (defined "__arm64__" _); [| reflexivity].
  rewrite seq_undef_define, undef_define. reflexivity.
Qed.

(** The fallbacks leave [__arm64__] alone. *)
Lemma compat_result_unfold (e : table) (k : string) :
  compat_result e k =
  let e8 :=
    or_default "fpclassify" (FunLike ["x"] "__builtin_fpclassify(x)")
      (or_default "signbit" (FunLike ["x"] "__builtin_signbit(x)")
      (or_default "isfinite" (FunLike ["x"] "__builtin_isfinite(x)")
      (or_default "isinf" (FunLike ["x"] "__builtin_isinf(x)")
      (or_default "isnan" (FunLike ["x"] "__builtin_isnan(x)")
      (or_default "isfinitef" (FunLike ["x"] "__builtin_isfinite(x)")
      (or_default "isinff" (FunLike ["x"] "__builtin_isinf(x)")
      (or_default "isnanf" (FunLike ["x"] "__builtin_isnan(x)") e))))))) in
  if defined "__arm64__" e
  then replace "isinff" (ObjLike "ios_isinff")
         (replace "isnanf" (ObjLike "ios_isnanf") e8) k
  else e8 k.
Proof.
  unfold compat_result. cbv zeta.
  match goal with
  | |- context [defined "__arm64__" ?t] =>
      replace (defined "__arm64__" t) with (defined "__arm64__" e)
  end.
  - destruct (defined "__arm64__" e); reflexivity.
  - unfold defined. peel reflexivity. reflexivity.
Qed.

Ltac lookup_block :=
  rewrite compat_result_unfold; cbv zeta;
  destruct (defined "__arm64__" _) eqn:?; peel reflexivity.

(** A bare [#define] does fail on a name defined otherwise; the guards
    are what keeps the block from doing so. *)
Example define_conflict :
  define "isnanf" (FunLike ["x"] "__builtin_isnan(x)")
    (bind "isnanf" (ObjLike "my_isnan") empty) = None.
Proof. reflexivity. Qed.

(** X10. Whatever macros are defined when the block is reached, none of
    its [#define]s redefines a defined name: the block always goes
    through. *)
Theorem compat_macros_never_conflicts (e : table) :
  exists e' : table, compat_macros e = Some e'.
Proof. exists (compat_result e). apply compat_macros_eval. Qed.

(** X11. With [__arm64__] defined, [isnanf] and [isinff] end up as
    [ios_isnanf] and [ios_isinff], whatever they were before, while
    [isfinitef] is not overridden. *)
Theorem arm64_override (e : table) (Harm : defined "__arm64__" e = true) :
  exists e' : table,
    compat_macros e = Some e' /\
    e' "isnanf" = Some (ObjLike "ios_isnanf") /\
    e' "isinff" = Some (ObjLike "ios_isinff") /\
    e' "isfinitef" =
      Some (match e "isfinitef" with
            | Some d => d
            | None => FunLike ["x"] "__builtin_isfinite(x)"
            end).
Proof.
  exists (compat_result e). split; [apply compat_macros_eval |].
  repeat split; lookup_block; try reflexivity; congruence.
Qed.

Lemma arm64_override_witness :
  let e := bind "isnanf" (FunLike ["v"] "__inline_isnanf(v)")
             (bind "__arm64__" (ObjLike "1") empty) in
  defined "__arm64__" e = true /\
  exists e' : table,
    compat_macros e = Some e' /\
    e' "isnanf" = Some (ObjLike "ios_isnanf") /\
    e' "isinff" = Some (ObjLike "ios_isinff") /\
    e' "isfinitef" =
      Some (match e "isfinitef" with
            | Some d => d
            | None => FunLike ["x"] "__builtin_isfinite(x)"
            end).
Proof.
  intros e.
  assert (H : defined "__arm64__" e = true) by reflexivity.
  split; [exact H | exact (arm64_override e H)].
Defined.

(** X12. Each of the eight names keeps the definition it had when the
    block was reached and gets its [__builtin_] fallback only if it had
    none -- except [isnanf] and [isinff] when [__arm64__] is defined. *)
Theorem prior_definition_or_fallback (e : table) (n : string) (b : macro)
    (Hn : In (n, b) fallbacks)
    (Hkeep : defined "__arm64__" e = false \/ (n <> "isnanf" /\ n <> "isinff")) :
  exists e' : table,
    compat_macros e = Some e' /\
    e' n = Some (match e n with Some d => d | None => b end).
Proof.
  exists (compat_result e). split; [apply compat_macros_eval |].
  unfold fallbacks in Hn. cbn [In] in Hn.
  repeat (destruct Hn as [Hn | Hn];
          [injection Hn as <- <-; lookup_block; try reflexivity;
           destruct Hkeep as [Hf | [Hnan Hinf]]; congruence |]).
  contradiction.
Qed.

Lemma prior_definition_or_fallback_witness :
  let e := bind "isnan" (FunLike ["x"] "__inline_isnan(x)") empty in
  In ("isnan", FunLike ["x"] "__builtin_isnan(x)") fallbacks /\
  (defined "__arm64__" e = false \/ ("isnan" <> "isnanf" /\ "isnan" <> "isinff")) /\
  exists e' : table,
    compat_macros e = Some e' /\
    e' "isnan" =
      Some (match e "isnan" with
            | Some d => d
            | None => FunLike ["x"] "__builtin_isnan(x)"
            end).
Proof.
  intros e.
  assert (Hn : In ("isnan", FunLike ["x"] "__builtin_isnan(x)") fallbacks)
    by (cbn; do 3 right; left; reflexivity).
  assert (Hk : defined "__arm64__" e = false
               \/ ("isnan" <> "isnanf" /\ "isnan" <> "isinff"))
    by (left; reflexivity).
  split; [exact Hn | split; [exact Hk |]].
  exact (prior_definition_or_fallback e "isnan" _ Hn Hk).
Defined.

Lemma compat_result_frame (e : table) (k : string) :
  ~ In k (map fst fallbacks) -> compat_result e k = e k.
Proof.
  intros Hk. cbn [map fst fallbacks In] in Hk.
  rewrite compat_result_unfold. cbv zeta.
  destruct (defined "__arm64__" e);
    peel ltac:(apply eqb_other; intros ->; apply Hk; tauto); reflexivity.
Qed.


(** X13. The block touches nothing but its eight names: every other
    macro, [__arm64__] and the include guard among them, is defined
    afterwards exactly as before. *)
Theorem other_macros_untouched (e : table) (k : string)
    (Hk : ~ In k [ "isnanf"; "isinff"; "isfinitef"; "isnan"; "isinf";
                   "isfinite"; "signbit"; "fpclassify" ]) :
  exists e' : table, compat_macros e = Some e' /\ e' k = e k.
Proof.
  exists (compat_result e). split; [apply compat_macros_eval |].
  apply compat_result_frame. exact Hk.
Qed.

Lemma other_macros_untouched_witness :
  let e := bind "M_PI" (ObjLike "3.14159265358979323846")
             (bind "__arm64__" (ObjLike "1") empty) in
  ~ In "M_PI" [ "isnanf"; "isinff"; "isfinitef"; "isnan"; "isinf";
                "isfinite"; "signbit"; "fpclassify" ] /\
  exists e' : table, compat_macros e = Some e' /\ e' "M_PI" = e "M_PI".
Proof.
  intros e.
  assert (Hk : ~ In "M_PI" [ "isnanf"; "isinff"; "isfinitef"; "isnan";
                             "isinf"; "isfinite"; "signbit"; "fpclassify" ]).
  { cbn [In]. intros H.
    repeat (destruct H as [H | H]; [discriminate H |]). exact H. }
  split; [exact Hk | exact (other_macros_untouched e "M_PI" Hk)].
Defined.



(** X15. Including the header a second time is a no-op: provided
    [<math.h>] does not undefine the guard, the table left by one
    inclusion is returned unchanged by the next. *)
Theorem second_inclusion_is_noop (math_h : directive)
    (Hguard : forall e e1 : table,
        math_h e = Some e1 ->
        defined "IOS_MATH_COMPAT_H" e = true ->
        defined "IOS_MATH_COMPAT_H" e1 = true)
    (e r : table)
    (Hfirst : ios_math_compat_h math_h e = Some r) :
  ios_math_compat_h math_h r = Some r.
Proof.
  assert (Hr : defined "IOS_MATH_COMPAT_H" r = true).
  { unfold ios_math_compat_h, ifndef in Hfirst.
    destruct (defined "IOS_MATH_COMPAT_H" e) eqn:E.
    - injection Hfirst as <-. exact E.
    - unfold seq at 1 in Hfirst. unfold define in Hfirst.
      unfold defined in E.
      destruct (e "IOS_MATH_COMPAT_H"); [discriminate E |].
      unfold seq in Hfirst.
      destruct (math_h (bind "IOS_MATH_COMPAT_H" (ObjLike "") e))
        as [e1 |] eqn:Hm; [| discriminate Hfirst].
      rewrite compat_macros_eval in Hfirst. injection Hfirst as <-.
      unfold defined. rewrite compat_result_frame.
      + apply (Hguard _ _ Hm). reflexivity.
      + cbn [map fst fallbacks In]. intros H.
        repeat (destruct H as [H | H]; [discriminate H |]). exact H. }
  unfold ios_math_compat_h, ifndef. rewrite Hr. reflexivity.
Qed.

Lemma second_inclusion_is_noop_witness :
  let math_h := define "isnan" (FunLike ["x"] "__builtin_isnan(x)") in
  let r := compat_result
             (bind "isnan" (FunLike ["x"] "__builtin_isnan(x)")
                (bind "IOS_MATH_COMPAT_H" (ObjLike "") empty)) in
  (forall e e1 : table,
      math_h e = Some e1 ->
      defined "IOS_MATH_COMPAT_H" e = true ->
      defined "IOS_MATH_COMPAT_H" e1 = true) /\
  ios_math_compat_h math_h empty = Some r /\
  ios_math_compat_h math_h r = Some r.
Proof.
  intros math_h r.
  assert (Hguard : forall e e1 : table,
             math_h e = Some e1 ->
             defined "IOS_MATH_COMPAT_H" e = true ->
             defined "IOS_MATH_COMPAT_H" e1 = true).
  { intros e e1 Hm He. unfold math_h, define in Hm.
    destruct (e "isnan") as [d |].
    - destruct (macro_eq_dec d (FunLike ["x"] "__builtin_isnan(x)"));
        [injection Hm as <-; exact He | discriminate Hm].
    - injection Hm as <-. exact He. }
  assert (Hfirst : ios_math_compat_h math_h empty = Some r) by reflexivity.
  split; [exact Hguard | split; [exact Hfirst |]].
  exact (second_inclusion_is_noop math_h Hguard empty r Hfirst).
Defined.

End MacroBlock.

(** ** Members read back from the bytes *)

Section LoadStore.

Import Layout Load Elf.

Local Open Scope nat_scope.




(** X17. A packed relocation info stored in [r_info] comes back from
    bytes 8 to 15 of the entry, and the extraction macros applied to what
    was read return the low 32 bits of the symbol index and of the type
    that were packed, whatever [r_offset] and [r_addend] hold. *)
Theorem r_info_through_bytes (off sym type addend : Z)
    (Hsym : u64 sym) (Htype : u64 type) :
  let bs := serialize Elf64_Rela_decl
              (Elf64_Rela_values
                 {| r_offset := off; r_info := ELF64_R_INFO sym type;
                    r_addend := addend |}) in
  load UInt64 8 bs = ELF64_R_INFO sym type /\
  ELF64_R_SYM (load UInt64 8 bs) = Z.land sym 0xffffffff /\
  ELF64_R_TYPE (load UInt64 8 bs) = Z.land type 0xffffffff.
Proof.
  intros bs.
  assert (Hload : load UInt64 8 bs = ELF64_R_INFO sym type).
  { pose proof (bytes_at_serialize Elf64_Rela_decl 1
                  (Member "r_info" UInt64 1) 8
                  (Elf64_Rela_values
                     {| r_offset := off; r_info := ELF64_R_INFO sym type;
                        r_addend := addend |})
                  eq_refl eq_refl) as Hb.
    change (member_size (Member "r_info" UInt64 1)) with 8 in Hb.
    subst bs. unfold load. cbn [sizeof]. rewrite Hb.
    unfold encode_member.
    cbn [m_type m_len sizeof Elf64_Rela_values nth encode_elems hd tl r_info].
    rewrite app_nil_r, le_combine_split.
    apply Z.mod_small. exact (ELF64_R_INFO_u64 sym type). }
  rewrite Hload. split; [reflexivity |].
  unfold ELF64_R_SYM, ELF64_R_TYPE.
  rewrite shr_32, !land_mask32, ELF64_R_INFO_arith.
  pose proof (Z.mod_pos_bound sym 4294967296 ltac:(lia)) as Bs.
  pose proof (Z.mod_pos_bound type 4294967296 ltac:(lia)) as Bt.
  split.
  - rewrite Z.div_add_l by lia.
    rewrite (Z.div_small (type mod 4294967296)) by exact Bt. lia.
  - rewrite Z.add_comm, Z.mod_add by lia.
    apply Z.mod_small. exact Bt.
Qed.

Lemma r_info_through_bytes_witness :
  let bs := serialize Elf64_Rela_decl
              (Elf64_Rela_values
                 {| r_offset := 0x2010; r_info := ELF64_R_INFO 0x700000005 4;
                    r_addend := (-4)%Z |}) in
  u64 0x700000005 /\ u64 4 /\
  load UInt64 8 bs = ELF64_R_INFO 0x700000005 4 /\
  ELF64_R_SYM (load UInt64 8 bs) = Z.land 0x700000005 0xffffffff /\
  ELF64_R_TYPE (load UInt64 8 bs) = Z.land 4 0xffffffff.
Proof.
  intros bs.
  assert (H1 : u64 0x700000005) by (split; [discriminate | reflexivity]).
  assert (H2 : u64 4) by (split; [discriminate | reflexivity]).
  split; [exact H1 | split; [exact H2 |]].
  exact (r_info_through_bytes 0x2010 0x700000005 4 (-4) H1 H2).
Defined.

Lemma encode_bytes (l : list Z) :
  Forall (fun b => (0 <= b < 256)%Z) l ->
  encode_elems 1 (List.length l) l = l.
Proof.
  induction 1 as [| b l Hb _ IH]; [reflexivity |].
  cbn [List.length encode_elems hd tl le_split app].
  rewrite IH, Z.mod_small by exact Hb. reflexivity.
Qed.

(** X18. The identification block is stored verbatim: when [e_ident]
    holds [EI_NIDENT] values that are bytes, the first [EI_NIDENT] bytes
    of the serialized file header are exactly [e_ident]. *)
Theorem e_ident_verbatim (h : Elf64_Ehdr)
    (Hlen : List.length (e_ident h) = Z.to_nat EI_NIDENT)
    (Hbytes : Forall (fun b => (0 <= b < 256)%Z) (e_ident h)) :
  bytes_at 0 (Z.to_nat EI_NIDENT)
    (serialize Elf64_Ehdr_decl (Elf64_Ehdr_values h)) = e_ident h.
Proof.
  pose proof (bytes_at_serialize Elf64_Ehdr_decl 0
                (Member "e_ident" UChar 16) 0 (Elf64_Ehdr_values h)
                eq_refl eq_refl) as Hb.
  change (member_size (Member "e_ident" UChar 16)) with (Z.to_nat EI_NIDENT)
    in Hb.
  rewrite Hb.
  unfold encode_member. cbn [m_type m_len sizeof Elf64_Ehdr_values nth].
  change 16 with (Z.to_nat EI_NIDENT). rewrite <- Hlen.
  apply encode_bytes. exact Hbytes.
Qed.

Lemma e_ident_verbatim_witness :
  let h := {| e_ident := [ELFMAG0; ELFMAG1; ELFMAG2; ELFMAG3; ELFCLASS64;
                          ELFDATA2LSB; EV_CURRENT; 0; 0; 0; 0; 0; 0; 0; 0; 0]%Z;
              e_type := ET_REL; e_machine := EM_X86_64;
              e_version := EV_CURRENT; e_entry := 0%Z; e_phoff := 0%Z;
              e_shoff := 0x240%Z; e_flags := 0%Z; e_ehsize := 64%Z;
              e_phentsize := 0%Z; e_phnum := 0%Z; e_shentsize := 64%Z;
              e_shnum := 7%Z; e_shstrndx := 6%Z |} in
  List.length (e_ident h) = Z.to_nat EI_NIDENT /\
  Forall (fun b => (0 <= b < 256)%Z) (e_ident h) /\
  bytes_at 0 (Z.to_nat EI_NIDENT)
    (serialize Elf64_Ehdr_decl (Elf64_Ehdr_values h)) = e_ident h.
Proof.
  intros h.
  assert (Hlen : List.length (e_ident h) = Z.to_nat EI_NIDENT) by reflexivity.
  assert (Hbytes : Forall (fun b => (0 <= b < 256)%Z) (e_ident h)).
  { cbn [e_ident h].
    repeat (apply Forall_cons; [split; [discriminate | reflexivity] |]).
    apply Forall_nil. }
  split; [exact Hlen | split; [exact Hbytes |]].
  exact (e_ident_verbatim h Hlen Hbytes).
Defined.

End LoadStore.
